(** * solid-whenever: truthiness-gated helpers ([check], [when], [every],
    [whenify]) embedded as monadic Rocq functions.

    The TypeScript of the library is translated function by function.
    JavaScript values are a first-order datatype; function objects are
    references whose call behaviour is given by an environment; a call may
    change the world and may throw.  Every call the library makes to a
    function object is recorded in a ghost trace, so that "is invoked
    exactly once" and "is never invoked" are statements about the trace. *)

From Stdlib Require Import ZArith SpecFloat.
From stdpp Require Import base option list strings.

Set Default Proof Using "Type".
Set Warnings "-register-all".
Local Open Scope string_scope.
Local Open Scope list_scope.

(** ** Values *)

(** A JavaScript number is an IEEE-754 double: signed zeros, infinities,
    NaN and finite numbers. *)
Definition number : Type := spec_float.

(** Identity of heap-allocated things (objects, symbols, functions). *)
Definition ref : Type := nat.

Inductive value : Type :=
| VUndefined
| VNull
| VBoolean (b : bool)
| VNumber (n : number)
| VString (s : string)
| VBigInt (z : Z)
| VSymbol (id : ref)
| VObject (addr : ref)
| VArray (slots : list (option value))
| VFunction (f : ref).

(** [VObject] stands for every object that is not an array or a function
    (plain objects, dates, regular expressions, maps, sets): such a value is
    its reference.  An array carries its slots, [None] being an empty slot
    as left by [new Array(n)]. *)

Definition typeof (v : value) : string :=
  match v with
  | VUndefined => "undefined"
  | VNull => "object"
  | VBoolean _ => "boolean"
  | VNumber _ => "number"
  | VString _ => "string"
  | VBigInt _ => "bigint"
  | VSymbol _ => "symbol"
  | VObject _ => "object"
  | VArray _ => "object"
  | VFunction _ => "function"
  end.

(** The boolean coercion applied by [value ? _ : _] and by [!_value]. *)
Definition ToBoolean (v : value) : bool :=
  match v with
  | VUndefined => false
  | VNull => false
  | VBoolean b => b
  | VNumber S754_nan => false
  | VNumber (S754_zero _) => false
  | VNumber _ => true
  | VString s => negb (String.eqb s "")
  | VBigInt z => negb (Z.eqb z 0)
  | VSymbol _ => true
  | VObject _ => true
  | VArray _ => true
  | VFunction _ => true
  end.

(** Number literals used in statements and examples. *)
Definition num_pos_zero : number := S754_zero false.
Definition num_neg_zero : number := S754_zero true.
Definition num_nan : number := S754_nan.
Definition num_of_pos (p : positive) : number := S754_finite false p 0.

(** The values the specification lists as falsy. *)
Definition listed_falsy (v : value) : Prop :=
  v = VBoolean false \/ v = VNumber num_pos_zero \/ v = VNumber num_neg_zero \/
  v = VString "" \/ v = VNull \/ v = VUndefined \/ v = VNumber num_nan \/
  v = VBigInt 0.

(** Reading a parameter that was not passed gives [undefined]. *)
Definition param (i : nat) (args : list value) : value :=
  nth i args VUndefined.

(** ** Completions, state and the call trace *)

Inductive completion (A : Type) : Type :=
| Normal (a : A)
| Throw (e : value).
Arguments Normal {A} a.
Arguments Throw {A} e.

(** One entry per call the library makes to a function object. *)
Inductive event : Type :=
| Call (f : ref) (args : list value).

Record state (World : Type) : Type := mkState {
  world : World;
  trace : list event
}.
Arguments mkState {World} world trace.
Arguments world {World} s.
Arguments trace {World} s.

Definition M (World A : Type) : Type :=
  state World -> completion A * state World.

Global Instance M_ret {World} : MRet (M World) :=
  fun A (a : A) s => (Normal a, s).

Global Instance M_bind {World} : MBind (M World) :=
  fun A B (k : A -> M World B) (m : M World A) s =>
    match m s with
    | (Normal a, s') => k a s'
    | (Throw e, s') => (Throw e, s')
    end.

Definition throw {World A} (e : value) : M World A :=
  fun s => (Throw e, s).

(** [try { m } catch (e) { throw f(e) }] *)
Definition map_throw {World A} (f : value -> value) (m : M World A)
    : M World A :=
  fun s =>
    match m s with
    | (Normal a, s') => (Normal a, s')
    | (Throw e, s') => (Throw (f e), s')
    end.

(** A JavaScript function seen from its caller: [(...args) => any]. *)
Definition Fn (World : Type) : Type := list value -> M World value.

(** What a call of a non-callable value throws. *)
Definition TypeError_not_callable : value :=
  VString "TypeError: value is not a function".

Section Whenever.

Context {World : Type}.

(** The call behaviour of every function object of the program that uses
    the library: given the arguments and the current world, a completion
    and the new world. *)
Variable body : ref -> list value -> World -> completion value * World.

(** Calling function object [f]: the call is traced, then its body runs. *)
Definition call (f : ref) : Fn World :=
  fun args s =>
    let '(c, w) := body f args (world s) in
    (c, mkState w (trace s ++ [Call f args])).

(** ** Utils *)

Definition resolve (v : value) : M World value :=
  if negb (String.eqb (typeof v) "function") then mret v
  else match v with
       | VFunction f => call f []
       | _ => throw TypeError_not_callable
       end.

(** ** Core *)

Definition check (accessor : value) (callback : Fn World)
    (fallback : option (Fn World)) : M World value :=
  v ← resolve accessor;
  if ToBoolean v then callback [v]
  else match fallback with
       | Some fallback => fallback []
       | None => mret VUndefined
       end.

Definition when (accessor : value) (callback : Fn World)
    (fallback : option (Fn World)) : Fn World :=
  fun args =>
    check accessor
      (fun params => callback (param 0 params :: args))
      (match fallback with
       | Some fallback => Some (fun _ => fallback args)
       | None => None
       end).

(** [new Array(n)]: [n] empty slots. *)
Definition array_new (n : nat) : list (option value) := replicate n None.

(** [values[i] = v].  Inside the array the slot is overwritten; past its
    end JavaScript grows the array, leaving the slots between empty. *)
Definition array_set (values : list (option value)) (i : nat) (v : value)
    : list (option value) :=
  if decide (i < length values) then <[i := Some v]> values
  else values ++ replicate (i - length values) None ++ [Some v].

(** The [for] loop of [every]'s [callback], started at index [i] with
    [remaining = accessors.length - i] iterations to go. *)
Fixpoint every_loop (accessors : list value) (remaining i : nat)
    (values : list (option value)) : M World value :=
  match remaining with
  | O => mret (VArray values)
  | S remaining =>
      _value ← resolve (param i accessors);
      if negb (ToBoolean _value) then mret VUndefined
      else every_loop accessors remaining (S i) (array_set values i _value)
  end.

Definition every (accessors : list value) : Fn World :=
  fun _ =>
    every_loop accessors (length accessors - 0) 0
      (array_new (length accessors)).

Definition whenify {Handle : Type} (fn : Fn World -> M World Handle)
    (accessor : value) (callback : Fn World) (fallback : option (Fn World))
    : M World Handle :=
  fn (when accessor callback fallback).

(** ** The host's memo primitive *)

(** [createMemo] is imported from the reactive host; the library only
    hands it the gated compute function.  The four definitions below are
    the host's side of that contract. *)

(** Modelled from the spec: the previous value the host passes to a compute
    function that has not run yet, when the memo is created without an
    initial value, as [whenify] creates it: [undefined]. *)
Definition host_initial_value : value := VUndefined.

(** Modelled from the spec: the host's memo, which keeps the compute
    function and the value it returned last. *)
Record memo : Type := mkMemo {
  memo_fn : Fn World;
  memo_value : value
}.

(** Modelled from the spec: the host's own error-handling path, into which
    an error thrown by a compute function goes.  The library has no say in
    it: [host_error e] is the value the host throws when the compute
    function threw [e]. *)
Variable host_error : value -> value.

(** Modelled from the spec: one invocation of a memo by the host, at
    creation or when its scheduler decides to re-run it: the compute
    function receives the stored value as its single argument and the value
    it returns is stored; an error it throws goes through the host's error
    path and nothing is stored. *)
Definition memo_update (m : memo) : M World memo :=
  v ← map_throw host_error (memo_fn m [memo_value m]);
  mret (mkMemo (memo_fn m) v).

(** Modelled from the spec: the host's [createMemo(fn)], which runs the
    compute function once, at once, on the initial value. *)
Definition createMemo (fn : Fn World) : M World memo :=
  memo_update (mkMemo fn host_initial_value).

(** ** Solid wrappers *)

Definition whenMemo : value -> Fn World -> option (Fn World) -> M World memo :=
  whenify createMemo.

(** ** Notions used to state the properties *)

(** What the library itself appends to the trace once the input has
    resolved to [v], when the branches are called with [cb_args] and
    [fb_args]. *)
Definition branch_events (v : value) (cb : ref) (cb_args : list value)
    (fb : option ref) (fb_args : list value) : list event :=
  if ToBoolean v then [Call cb cb_args]
  else match fb with
       | Some f => [Call f fb_args]
       | None => []
       end.

Definition truthy (v : value) : Prop := ToBoolean v = true.

(** [resolve_seq accessors s vs s']: resolving the inputs one after the
    other from state [s], none throws, the values are [vs] in the same
    order, and the state reached is [s']. *)
Inductive resolve_seq : list value -> state World -> list value -> state World -> Prop :=
| resolve_seq_nil s : resolve_seq [] s [] s
| resolve_seq_cons a accessors s v s1 vs s2 :
    resolve a s = (Normal v, s1) ->
    resolve_seq accessors s1 vs s2 ->
    resolve_seq (a :: accessors) s (v :: vs) s2.

(** The calls that resolving these inputs makes: one per producer, in
    input order. *)
Definition producer_calls (accessors : list value) : list event :=
  flat_map (fun a => match a with VFunction p => [Call p []] | _ => [] end)
    accessors.

(** [values[i] = v0; values[i+1] = v1; ...] *)
Fixpoint fill (values : list (option value)) (i : nat) (vs : list value)
    : list (option value) :=
  match vs with
  | [] => values
  | v :: vs => fill (array_set values i v) (S i) vs
  end.


(** The memos of an adapted constructor: the memo [whenMemo(accessor, cb)]
    or [whenMemo(accessor, cb, fb)] returned, re-run by the host any number
    of times. *)
Inductive adapted_memo (accessor : value) (cb : ref) (fb : option ref)
    : memo -> Prop :=
| adapted_created s m s' :
    whenMemo accessor (call cb) (call <$> fb) s = (Normal m, s') ->
    adapted_memo accessor cb fb m
| adapted_rerun m s m' s' :
    adapted_memo accessor cb fb m ->
    memo_update m s = (Normal m', s') ->
    adapted_memo accessor cb fb m'.

(** ** The adapter in the specification's words *)

(** The adapted constructor in the specification's words: first build the
    gated compute function with [when], then pass it to the wrapped
    constructor, then return what the constructor returned. *)
Definition adaptedConstructor_spec {Handle : Type}
    (reactivePrimitiveConstructor : Fn World -> M World Handle)
    (input : value) (callback : Fn World) (fallback : option (Fn World))
    : M World Handle :=
  gatedFn ← mret (when input callback fallback);
  handle ← reactivePrimitiveConstructor gatedFn;
  mret handle.

End Whenever.

Arguments memo World : clear implicits.

(** ** A small program using the library

    World: the current content of a numeric signal ([0] stands for [null])
    together with the number of times the counting producer has run. *)
Module Demo.

Record World : Type := mkWorld { signal : nat; reads : nat }.

Definition signal_value (n : nat) : value :=
  match n with
  | O => VNull
  | S _ => VNumber (num_of_pos (Pos.of_nat n))
  end.

Definition error_value : value := VString "Error: boom".

(** Function objects of the program, by reference:
    - 0: [() => signal()]
    - 1: [(v, ...rest) => v] (a callback returning the gated value)
    - 2: [() => 'fallback']
    - 3: [() => { throw 'Error: boom' }]
    - 4: [const self = () => self]
    - 5: [() => { reads++; return signal() }]
    - 6: [() => undefined]
    - other: [() => undefined] *)
Definition body (f : ref) (args : list value) (w : World)
    : completion value * World :=
  match f with
  | 0 => (Normal (signal_value (signal w)), w)
  | 1 => (Normal (param 0 args), w)
  | 2 => (Normal (VString "fallback"), w)
  | 3 => (Throw error_value, w)
  | 4 => (Normal (VFunction 4), w)
  | 5 => (Normal (signal_value (signal w)), mkWorld (signal w) (S (reads w)))
  | 6 => (Normal VUndefined, w)
  | _ => (Normal VUndefined, w)
  end.

Definition start (n : nat) : state World := mkState (mkWorld n 0) [].

(** A host error path, as a reactive host has one: an error object is
    thrown on as it is, any other thrown value is replaced by a new error
    object. *)
Definition host_error (e : value) : value :=
  match e with
  | VObject _ => e
  | _ => VObject 0
  end.

(** [setSignal(n)], done by the program between two invocations. *)
Definition write (n : nat) : M World unit :=
  fun s => (Normal tt, mkState (mkWorld n (reads (world s))) (trace s)).

(** A gated memo over the signal, with the callback 1 and the fallback 2,
    created while the signal is empty and re-run by the host after each of
    the writes 5, 7 and empty; the four values the memo held. *)
Definition memo_scenario : M World (list value) :=
  m0 ← whenMemo body host_error (VFunction 0) (call body 1)
         (Some (call body 2));
  _ ← write 5;
  m1 ← memo_update host_error m0;
  _ ← write 7;
  m2 ← memo_update host_error m1;
  _ ← write 0;
  m3 ← memo_update host_error m2;
  mret [memo_value m0; memo_value m1; memo_value m2; memo_value m3].

(** Two calls in a row of one gated function over the counting producer. *)
Definition gate_twice : M World (list value) :=
  let gated := when body (VFunction 5) (call body 1) None in
  r1 ← gated [];
  _ ← write 0;
  r2 ← gated [];
  mret [r1; r2].

End Demo.

(** ** Closures built by the library, seen as function objects *)

(** The producer returned by [every] and the function returned by [when]
    are function objects themselves: they can be given as an input or as a
    callback.  [run_on_world m w] is what such a closure does when it is
    called as a function object in world [w]. *)
Definition run_on_world {World A : Type} (m : M World A) (w : World)
    : completion A * World :=
  let '(c, s') := m (mkState w []) in (c, world s').

(** Function object [g] is the closure [fn]. *)
Definition is_closure {World : Type}
    (body : ref -> list value -> World -> completion value * World)
    (g : ref) (fn : Fn World) : Prop :=
  forall args w, body g args w = run_on_world (fn args) w.

(** The trace is a ghost: running [m] after some trace [t] gives what it
    gives after the empty trace, with [t] in front of the calls made. *)
Definition framed {World A : Type} (m : M World A) : Prop :=
  forall w t,
    m (mkState w t) =
    let '(c, s') := m (mkState w []) in (c, mkState (world s') (t ++ trace s')).

(** The constructor the unit tests of [whenify] wrap: [fn => fn()]. *)
Definition mockFn {World : Type} (fn : Fn World) : M World value := fn [].

(** The program of [Demo] with one more function object, 10, which is the
    producer [every(signal, counting)]. *)
Module DemoClosure.

Definition inputs : list value := [VFunction 0; VFunction 5].

Definition body (f : ref) (args : list value) (w : Demo.World)
    : completion value * Demo.World :=
  match f with
  | 10 => run_on_world (every Demo.body inputs args) w
  | _ => Demo.body f args w
  end.

End DemoClosure.

(** ** Monad and resolver lemmas *)

Section Lemmas.

Context {World : Type}.
Variable body : ref -> list value -> World -> completion value * World.

Implicit Types (s : state World) (v e : value) (f : ref).

Lemma bind_Normal {A B} (m : M World A) (k : A -> M World B) s a s' :
  m s = (Normal a, s') -> (m ≫= k) s = k a s'.
Proof. intros Hm. unfold mbind, M_bind. now rewrite Hm. Qed.

Lemma bind_Throw {A B} (m : M World A) (k : A -> M World B) s e s' :
  m s = (Throw e, s') -> (m ≫= k) s = (Throw e, s').
Proof. intros Hm. unfold mbind, M_bind. now rewrite Hm. Qed.

Lemma call_trace f args s :
  trace (call body f args s).2 = trace s ++ [Call f args].
Proof. unfold call. now destruct (body f args (world s)). Qed.

Lemma resolve_literal v s :
  typeof v <> "function" -> resolve body v s = (Normal v, s).
Proof. destruct v; simpl; intros H; try reflexivity. now destruct H. Qed.



(** The trace only grows while an input is resolved: by at most the one
    call of the producer. *)
Lemma resolve_trace a s :
  trace (resolve body a s).2 =
  trace s ++ match a with VFunction f => [Call f []] | _ => [] end.
Proof.
  destruct a; simpl; try (now rewrite app_nil_r).
  apply call_trace.
Qed.

End Lemmas.

Lemma ToBoolean_false_iff (v : value) : ToBoolean v = false <-> listed_falsy v.
Proof.
  unfold listed_falsy, num_pos_zero, num_neg_zero, num_nan. split.
  - destruct v as [| |[]|[[]| | |]|s|z| | | |]; simpl; intros H;
      try discriminate H; auto 10.
    + apply negb_false_iff, String.eqb_eq in H. subst s. auto 10.
    + apply negb_false_iff, Z.eqb_eq in H. subst z. auto 10.
  - intros H. repeat destruct H as [-> | H]; try subst v; reflexivity.
Qed.

(** ** The guarded invoker and the gate *)

Section Gate.

Context {World : Type}.
Variable body : ref -> list value -> World -> completion value * World.

Implicit Types (s : state World) (v e : value) (cb : ref) (fb : option ref).

Lemma check_run accessor (callback : Fn World) fallback s v s1 :
  resolve body accessor s = (Normal v, s1) ->
  check body accessor callback fallback s =
  if ToBoolean v then callback [v] s1
  else match fallback with
       | Some fallback => fallback [] s1
       | None => (Normal VUndefined, s1)
       end.
Proof.
  intros Hr. unfold check. rewrite (bind_Normal _ _ _ _ _ Hr).
  destruct (ToBoolean v); [reflexivity|]. now destruct fallback.
Qed.

Lemma check_resolve_throws accessor (callback : Fn World) fallback s e s1 :
  resolve body accessor s = (Throw e, s1) ->
  check body accessor callback fallback s = (Throw e, s1).
Proof. intros Hr. unfold check. now rewrite (bind_Throw _ _ _ _ _ Hr). Qed.

(** C1: once the input has resolved to [v]: if [v] is one of the falsy
    values, [check] without a fallback returns [undefined] in the very
    state the resolution left, so [cb] is not called; if [v] is not
    falsy, [check] is exactly the one call [cb(v)] and returns what it
    returns; and in every case the calls [check] makes after the
    resolution are exactly one call of the callback, or exactly one call
    of the fallback, or none. *)
Theorem check_gates_on_truthiness accessor cb fb s v s1 :
  resolve body accessor s = (Normal v, s1) ->
  (listed_falsy v ->
     check body accessor (call body cb) None s = (Normal VUndefined, s1)) /\
  (~ listed_falsy v ->
     check body accessor (call body cb) (call body <$> fb) s
       = call body cb [v] s1 /\
     trace (check body accessor (call body cb) (call body <$> fb) s).2
       = trace s1 ++ [Call cb [v]]) /\
  trace (check body accessor (call body cb) (call body <$> fb) s).2
    = trace s1 ++ branch_events v cb [v] fb [].
Proof.
  intros Hr. split; [|split].
  - intros Hf%ToBoolean_false_iff. now rewrite (check_run _ _ _ _ _ _ Hr), Hf.
  - intros Hf. rewrite (check_run _ _ _ _ _ _ Hr).
    destruct (ToBoolean v) eqn:Hb.
    + split; [reflexivity | apply call_trace].
    + now apply ToBoolean_false_iff in Hb.
  - rewrite (check_run _ _ _ _ _ _ Hr). unfold branch_events.
    destruct (ToBoolean v); [apply call_trace|].
    destruct fb as [f|]; simpl; [apply call_trace|].
    now rewrite app_nil_r.
Qed.

Lemma when_run accessor cb fb args s v s1 :
  resolve body accessor s = (Normal v, s1) ->
  when body accessor (call body cb) (call body <$> fb) args s =
  if ToBoolean v then call body cb (v :: args) s1
  else match fb with
       | Some f => call body f args s1
       | None => (Normal VUndefined, s1)
       end.
Proof.
  intros Hr. unfold when. rewrite (check_run _ _ _ _ _ _ Hr).
  destruct (ToBoolean v); [reflexivity|]. now destruct fb.
Qed.

Lemma when_trace_after accessor cb fb args s v s1 :
  resolve body accessor s = (Normal v, s1) ->
  trace (when body accessor (call body cb) (call body <$> fb) args s).2 =
  trace s1 ++ branch_events v cb (v :: args) fb args.
Proof.
  intros Hr. rewrite (when_run _ _ _ _ _ _ _ Hr).
  unfold branch_events. destruct (ToBoolean v); [apply call_trace|].
  destruct fb as [f|]; [apply call_trace|]. simpl. now rewrite app_nil_r.
Qed.

Lemma when_trace accessor cb fb args s v s1 :
  resolve body accessor s = (Normal v, s1) ->
  trace (when body accessor (call body cb) (call body <$> fb) args s).2 =
  trace s ++
  match accessor with VFunction p => [Call p []] | _ => [] end ++
  branch_events v cb (v :: args) fb args.
Proof.
  intros Hr. rewrite (when_trace_after _ _ _ _ _ _ _ Hr).
  pose proof (resolve_trace body accessor s) as Ht.
  rewrite Hr in Ht. simpl in Ht. now rewrite app_assoc, <- Ht.
Qed.

(** C2: a call of the gated function with [args] is [check] on the same
    input with the two forwarding closures; once the input has resolved
    to [v] at this call, the truthy branch is [cb(v, ...args)], the falsy
    branch is [fb(...args)] or [undefined]; and the calls made during
    this call are the resolution of the input followed by the branch. *)
Theorem when_forwards_arguments accessor cb fb args s :
  when body accessor (call body cb) (call body <$> fb) args s =
    check body accessor
      (fun params => call body cb (param 0 params :: args))
      ((fun fallback : Fn World => fun _ => fallback args) <$> (call body <$> fb))
      s /\
  forall v s1, resolve body accessor s = (Normal v, s1) ->
    when body accessor (call body cb) (call body <$> fb) args s =
      (if ToBoolean v then call body cb (v :: args) s1
       else match fb with
            | Some f => call body f args s1
            | None => (Normal VUndefined, s1)
            end) /\
    trace (when body accessor (call body cb) (call body <$> fb) args s).2 =
      trace s ++
      match accessor with VFunction p => [Call p []] | _ => [] end ++
      branch_events v cb (v :: args) fb args.
Proof.
  split; [now destruct fb|].
  intros v s1 Hr. split; [now apply when_run | now apply (when_trace _ _ _ _ _ _ s1)].
Qed.

End Gate.

(** The signal holds 5: the input resolves to the number 5, which is not
    falsy, so the callback runs once with it. *)
Lemma check_gates_on_truthiness_witness :
  resolve Demo.body (VFunction 0) (Demo.start 5)
    = (Normal (VNumber (num_of_pos 5)), mkState (Demo.mkWorld 5 0) [Call 0 []]) /\
  trace (check Demo.body (VFunction 0) (call Demo.body 1)
           (call Demo.body <$> Some 2) (Demo.start 5)).2
    = [Call 0 []; Call 1 [VNumber (num_of_pos 5)]].
Proof.
  split; [reflexivity|].
  exact (proj2 (proj2
    (check_gates_on_truthiness Demo.body (VFunction 0) 1 (Some 2)
       (Demo.start 5) _ _ eq_refl))).
Defined.

(** The signal holds nothing: the gated function forwards its two
    arguments to the fallback alone. *)
Lemma when_forwards_arguments_witness :
  resolve Demo.body (VFunction 0) (Demo.start 0)
    = (Normal VNull, mkState (Demo.mkWorld 0 0) [Call 0 []]) /\
  trace (when Demo.body (VFunction 0) (call Demo.body 1)
           (call Demo.body <$> Some 2) [VBoolean true; VString "x"]
           (Demo.start 0)).2
    = [Call 0 []; Call 2 [VBoolean true; VString "x"]].
Proof.
  split; [reflexivity|].
  exact (proj2 (proj2
    (when_forwards_arguments Demo.body (VFunction 0) 1 (Some 2)
       [VBoolean true; VString "x"] (Demo.start 0)) _ _ eq_refl)).
Defined.

(** ** The conjunction *)

Section Conjunction.

Context {World : Type}.
Variable body : ref -> list value -> World -> completion value * World.

Implicit Types (s : state World) (v e a : value).
Implicit Types (accessors pre mid post vs : list value).

Lemma resolve_seq_length accessors s vs s' :
  resolve_seq body accessors s vs s' -> length vs = length accessors.
Proof. induction 1; simpl; congruence. Qed.

Lemma resolve_seq_trace accessors s vs s' :
  resolve_seq body accessors s vs s' ->
  trace s' = trace s ++ producer_calls accessors.
Proof.
  induction 1 as [s|a accessors s v s1 vs s2 Hr _ IH]; simpl.
  - now rewrite app_nil_r.
  - pose proof (resolve_trace body a s) as Ht. rewrite Hr in Ht.
    simpl in Ht. now rewrite IH, Ht, app_assoc.
Qed.

Lemma resolve_seq_app pre s vs s1 a v s2 :
  resolve_seq body pre s vs s1 -> resolve body a s1 = (Normal v, s2) ->
  resolve_seq body (pre ++ [a]) s (vs ++ [v]) s2.
Proof.
  induction 1; simpl; intros Hr.
  - econstructor; [eassumption | constructor].
  - econstructor; [eassumption | auto].
Qed.

Lemma resolve_seq_functional accessors s vs s' vs2 s2 :
  resolve_seq body accessors s vs s' -> resolve_seq body accessors s vs2 s2 ->
  vs2 = vs /\ s2 = s'.
Proof.
  intros H. revert vs2 s2.
  induction H as [s|a accessors s v s1 vs s' Hr _ IH]; intros vs2 s2 H2;
    inversion H2; subst; [easy|].
  match goal with
  | Hr' : resolve body a s = _ |- _ => rewrite Hr in Hr'; injection Hr' as <- <-
  end.
  match goal with
  | Hs : resolve_seq body accessors s1 _ _ |- _ => destruct (IH _ _ Hs) as [-> ->]
  end.
  easy.
Qed.

(** Filling the first free slots of an array of empty slots. *)
Lemma fill_prefix (done vs : list value) (k : nat) :
  fill ((Some <$> done) ++ replicate (length vs + k) None) (length done) vs
  = (Some <$> (done ++ vs)) ++ replicate k None.
Proof.
  revert done. induction vs as [|v vs IH]; intros done; simpl.
  - now rewrite app_nil_r.
  - unfold array_set. rewrite decide_True.
    2:{ rewrite length_app, length_fmap. simpl. lia. }
    rewrite insert_app_r_alt by (rewrite length_fmap; lia).
    rewrite length_fmap, Nat.sub_diag. simpl.
    specialize (IH (done ++ [v])).
    rewrite length_app, fmap_app, <- !app_assoc in IH. simpl in IH.
    now rewrite Nat.add_1_r in IH.
Qed.

(** As long as the inputs resolve truthy the loop moves on, having stored
    each value at its index. *)
Lemma every_loop_prefix mid s vs s1 :
  resolve_seq body mid s vs s1 -> Forall truthy vs ->
  forall pre post values,
    every_loop body (pre ++ mid ++ post) (length mid + length post)
      (length pre) values s
    = every_loop body (pre ++ mid ++ post) (length post)
        (length pre + length mid) (fill values (length pre) vs) s1.
Proof.
  induction 1 as [s|a mid s v s1 vs s2 Hr _ IH]; intros Hall pre post values.
  - simpl. now rewrite Nat.add_0_r.
  - apply Forall_cons in Hall as [Hv Hall]. simpl.
    unfold param. rewrite nth_middle, (bind_Normal _ _ _ _ _ Hr), Hv. simpl.
    specialize (IH Hall (pre ++ [a]) post (array_set values (length pre) v)).
    rewrite <- app_assoc, length_app in IH. simpl in IH.
    rewrite Nat.add_1_r in IH. rewrite IH. f_equal; lia.
Qed.

(** Every run of the loop is of exactly one kind. *)
Lemma resolve_cases accessors s :
  (exists vs s', resolve_seq body accessors s vs s' /\ Forall truthy vs) \/
  (exists pre a post vs s1 v s2,
     accessors = pre ++ a :: post /\ resolve_seq body pre s vs s1 /\
     Forall truthy vs /\ resolve body a s1 = (Normal v, s2) /\
     ToBoolean v = false) \/
  (exists pre a post vs s1 e s2,
     accessors = pre ++ a :: post /\ resolve_seq body pre s vs s1 /\
     Forall truthy vs /\ resolve body a s1 = (Throw e, s2)).
Proof.
  revert s. induction accessors as [|a accessors IH]; intros s.
  - left. exists [], s. split; constructor.
  - destruct (resolve body a s) as [[v|e] s1] eqn:Hr.
    + destruct (ToBoolean v) eqn:Hv.
      * destruct (IH s1) as
          [(vs & s' & Hs & Hall)
          |[(pre & b & post & vs & s2 & w & s3 & -> & Hs & Hall & Hb & Hw)
           |(pre & b & post & vs & s2 & e & s3 & -> & Hs & Hall & Hb)]].
        -- left. exists (v :: vs), s'. split; [econstructor; eauto|].
           now constructor.
        -- right. left. exists (a :: pre), b, post, (v :: vs), s2, w, s3.
           repeat split; auto; first [econstructor; eassumption | now constructor].
        -- right. right. exists (a :: pre), b, post, (v :: vs), s2, e, s3.
           repeat split; auto; first [econstructor; eassumption | now constructor].
      * right. left. exists [], a, accessors, [], s, v, s1.
        repeat split; auto; constructor.
    + right. right. exists [], a, accessors, [], s, e, s1.
      repeat split; auto; constructor.
Qed.

Lemma every_all accessors args s vs s' :
  resolve_seq body accessors s vs s' -> Forall truthy vs ->
  every body accessors args s = (Normal (VArray (Some <$> vs)), s').
Proof.
  intros Hs Hall. unfold every, array_new. rewrite Nat.sub_0_r.
  pose proof (every_loop_prefix _ _ _ _ Hs Hall [] [] (replicate (length accessors) None))
    as Hp.
  simpl in Hp. rewrite app_nil_r, Nat.add_0_r in Hp. rewrite Hp.
  pose proof (fill_prefix [] vs 0) as Hf. simpl in Hf.
  rewrite Nat.add_0_r, app_nil_r, (resolve_seq_length _ _ _ _ Hs) in Hf.
  now rewrite Hf.
Qed.

Lemma every_stops pre a post args s vs s1 c s2 :
  resolve_seq body pre s vs s1 -> Forall truthy vs ->
  resolve body a s1 = (c, s2) ->
  match c with Normal v => ToBoolean v = false | Throw _ => True end ->
  every body (pre ++ a :: post) args s =
  (match c with Normal _ => Normal VUndefined | Throw e => Throw e end, s2).
Proof.
  intros Hs Hall Hr Hc. unfold every. rewrite Nat.sub_0_r.
  generalize (array_new (length (pre ++ a :: post))). intros values.
  pose proof (every_loop_prefix _ _ _ _ Hs Hall [] (a :: post) values) as Hp.
  simpl in Hp. rewrite length_app. simpl. rewrite Hp. unfold param.
  rewrite nth_middle. destruct c as [v|e].
  - now rewrite (bind_Normal _ _ _ _ _ Hr), Hc.
  - now rewrite (bind_Throw _ _ _ _ _ Hr).
Qed.

Lemma resolve_seq_literals accessors s :
  Forall (fun a => typeof a <> "function") accessors ->
  resolve_seq body accessors s accessors s.
Proof.
  induction 1 as [|a accessors Ha _ IH]; [constructor|].
  econstructor; [now apply resolve_literal | exact IH].
Qed.

Lemma forallb_truthy vs : forallb ToBoolean vs = true <-> Forall truthy vs.
Proof.
  unfold truthy. induction vs as [|v vs IH]; simpl.
  - split; [constructor | reflexivity].
  - rewrite andb_true_iff, IH. split.
    + intros [Hv Hvs]. now constructor.
    + intros [Hv Hvs]%Forall_cons. easy.
Qed.

(** C3: the producer built by [every] returns the array of the resolved
    values, in input order and unchanged, when the inputs all resolve
    truthy; whenever it returns an array, that is what happened; whenever
    it returns anything else, it returns [undefined] and some input
    resolved falsy; for inputs that are plain values this is decided by
    the values themselves; with no inputs it returns the empty array. *)
Theorem every_all_or_nothing accessors args s :
  (forall vs s', resolve_seq body accessors s vs s' -> Forall truthy vs ->
     every body accessors args s = (Normal (VArray (Some <$> vs)), s')) /\
  (forall r s', every body accessors args s = (Normal r, s') ->
     (exists vs, r = VArray (Some <$> vs) /\ length vs = length accessors /\
        resolve_seq body accessors s vs s' /\ Forall truthy vs) \/
     (r = VUndefined /\
      exists pre a post vs s1 v,
        accessors = pre ++ a :: post /\ resolve_seq body pre s vs s1 /\
        Forall truthy vs /\ resolve body a s1 = (Normal v, s') /\
        ToBoolean v = false)) /\
  (Forall (fun a => typeof a <> "function") accessors ->
     every body accessors args s =
     (Normal (if forallb ToBoolean accessors
              then VArray (Some <$> accessors) else VUndefined), s)) /\
  every body [] args s = (Normal (VArray []), s).
Proof.
  split; [|split; [|split]].
  - intros vs s' Hs Hall. now apply every_all.
  - intros r s' He.
    destruct (resolve_cases accessors s) as
      [(vs & s2 & Hs & Hall)
      |[(pre & a & post & vs & s1 & v & s2 & -> & Hs & Hall & Hr & Hv)
       |(pre & a & post & vs & s1 & e & s2 & -> & Hs & Hall & Hr)]].
    + rewrite (every_all _ _ _ _ _ Hs Hall) in He. injection He as <- <-.
      left. exists vs. eauto using resolve_seq_length.
    + rewrite (every_stops _ _ _ _ _ _ _ _ _ Hs Hall Hr Hv) in He.
      injection He as <- <-. right. split; [reflexivity|].
      exists pre, a, post, vs, s1, v. auto.
    + rewrite (every_stops _ _ _ _ _ _ _ _ _ Hs Hall Hr I) in He.
      discriminate He.
  - intros Hlit. pose proof (resolve_seq_literals _ s Hlit) as Hs.
    destruct (forallb ToBoolean accessors) eqn:Hb.
    + apply forallb_truthy in Hb. now apply every_all.
    + destruct (resolve_cases accessors s) as
        [(vs & s2 & Hs2 & Hall)
        |[(pre & a & post & vs & s1 & v & s2 & Heq & Hs2 & Hall & Hr & Hv)
         |(pre & a & post & vs & s1 & e & s2 & Heq & Hs2 & Hall & Hr)]].
      * destruct (resolve_seq_functional _ _ _ _ _ _ Hs Hs2) as [-> ->].
        apply forallb_truthy in Hall. congruence.
      * subst accessors. apply Forall_app in Hlit as [Hpre Ha].
        apply Forall_cons in Ha as [Ha _].
        pose proof (resolve_seq_literals _ s Hpre) as Hs3.
        destruct (resolve_seq_functional _ _ _ _ _ _ Hs3 Hs2) as [-> ->].
        rewrite (resolve_literal _ _ _ Ha) in Hr. injection Hr as <- <-.
        now rewrite (every_stops _ _ _ _ _ _ _ _ _ Hs2 Hall
                       (resolve_literal _ _ _ Ha) Hv).
      * subst accessors. apply Forall_app in Hlit as [Hpre Ha].
        apply Forall_cons in Ha as [Ha _].
        pose proof (resolve_seq_literals _ s Hpre) as Hs3.
        destruct (resolve_seq_functional _ _ _ _ _ _ Hs3 Hs2) as [-> ->].
        rewrite (resolve_literal _ _ _ Ha) in Hr. discriminate Hr.
  - reflexivity.
Qed.

(** C4: when the inputs before index [i] resolve truthy and the input at
    index [i] resolves falsy, the producer returns [undefined] in the
    very state that resolution left, whatever the later inputs are; the
    calls made are those of the producers among the inputs at indices
    [0..i], in input order, and no other. *)
Theorem every_short_circuits pre a post args s vs s1 v s2 :
  resolve_seq body pre s vs s1 -> Forall truthy vs ->
  resolve body a s1 = (Normal v, s2) -> ToBoolean v = false ->
  every body (pre ++ a :: post) args s = (Normal VUndefined, s2) /\
  trace (every body (pre ++ a :: post) args s).2
    = trace s ++ producer_calls (pre ++ [a]).
Proof.
  intros Hs Hall Hr Hv.
  rewrite (every_stops _ _ _ _ _ _ _ _ _ Hs Hall Hr Hv). split; [reflexivity|].
  simpl. exact (resolve_seq_trace _ _ _ _ (resolve_seq_app _ _ _ _ _ _ _ Hs Hr)).
Qed.

End Conjunction.

(** [every(counting, "a")] while the signal holds 5: both inputs resolve
    truthy, the array holds the two values in input order. *)
Lemma every_all_or_nothing_witness :
  resolve_seq Demo.body [VFunction 5; VString "a"] (Demo.start 5)
    [VNumber (num_of_pos 5); VString "a"]
    (mkState (Demo.mkWorld 5 1) [Call 5 []]) /\
  Forall truthy [VNumber (num_of_pos 5); VString "a"] /\
  every Demo.body [VFunction 5; VString "a"] [] (Demo.start 5)
    = (Normal (VArray [Some (VNumber (num_of_pos 5)); Some (VString "a")]),
       mkState (Demo.mkWorld 5 1) [Call 5 []]).
Proof.
  assert (Hs : resolve_seq Demo.body [VFunction 5; VString "a"] (Demo.start 5)
                 [VNumber (num_of_pos 5); VString "a"]
                 (mkState (Demo.mkWorld 5 1) [Call 5 []])).
  { eapply resolve_seq_cons; [reflexivity|].
    eapply resolve_seq_cons; [reflexivity|]. apply resolve_seq_nil. }
  assert (Hall : Forall truthy [VNumber (num_of_pos 5); VString "a"]).
  { repeat constructor. }
  split; [exact Hs|]. split; [exact Hall|].
  exact (proj1 (every_all_or_nothing Demo.body _ [] (Demo.start 5)) _ _ Hs Hall).
Defined.

(** [every(counting, null, counting)]: the first producer runs, the second
    input is falsy, the third input is not resolved: one call, one read. *)
Lemma every_short_circuits_witness :
  resolve_seq Demo.body [VFunction 5] (Demo.start 5) [VNumber (num_of_pos 5)]
    (mkState (Demo.mkWorld 5 1) [Call 5 []]) /\
  every Demo.body ([VFunction 5] ++ VNull :: [VFunction 5]) [] (Demo.start 5)
    = (Normal VUndefined, mkState (Demo.mkWorld 5 1) [Call 5 []]).
Proof.
  assert (Hs : resolve_seq Demo.body [VFunction 5] (Demo.start 5)
                 [VNumber (num_of_pos 5)]
                 (mkState (Demo.mkWorld 5 1) [Call 5 []])).
  { eapply resolve_seq_cons; [reflexivity | apply resolve_seq_nil]. }
  split; [exact Hs|].
  refine (proj1 (every_short_circuits Demo.body [VFunction 5] VNull
                   [VFunction 5] [] (Demo.start 5) _ _ VNull _ Hs _ eq_refl eq_refl)).
  repeat constructor.
Defined.

(** ** The adapter *)

Section Adapter.

Context {World : Type}.
Variable body : ref -> list value -> World -> completion value * World.

Implicit Types (s : state World) (v e : value).

(** C5: [whenify(fn)(input, callback, fallback)] is the single application
    of [fn] to [when(input, callback, fallback)]: same completion, same
    final state, from every state; and it agrees with the two-step
    description of the specification. *)
Theorem whenify_applies_constructor_to_gate {Handle : Type}
    (fn : Fn World -> M World Handle) input callback fallback s :
  whenify body fn input callback fallback s
    = fn (when body input callback fallback) s /\
  whenify body fn input callback fallback s
    = adaptedConstructor_spec body fn input callback fallback s.
Proof.
  split; [reflexivity|].
  unfold adaptedConstructor_spec, whenify, mbind, M_bind, mret, M_ret.
  now destruct (fn (when body input callback fallback) s) as [[h|e] s'].
Qed.

End Adapter.

(** ** Errors *)

Section Errors.

Context {World : Type}.
Variable body : ref -> list value -> World -> completion value * World.
Variable host_error : value -> value.

Implicit Types (s : state World) (v e a : value).
Implicit Types (callback : Fn World) (fallback : option (Fn World)).

Lemma memo_update_throws (m : memo World) s e s1 :
  memo_fn m [memo_value m] s = (Throw e, s1) ->
  memo_update host_error m s = (Throw (host_error e), s1).
Proof.
  intros Hc. unfold memo_update, map_throw, mbind, M_bind. now rewrite Hc.
Qed.

(** C6, as the code has it: an error leaves [resolve], [check], the gated
    function and the producer built by [every] as their completion, with
    the same thrown value and the state in which it was thrown: a throwing
    producer makes them throw, [check] and the gate running neither branch
    and [every] returning no array; a throwing callback or fallback makes
    [check] and the gated function throw.  The adapter adds no handling:
    whatever the constructor, the adapted constructor completes as the
    constructor does on a compute function that throws these errors
    unchanged; for the memo, at creation and at every later invocation, the
    error that goes into the host's error path is the one that was thrown,
    and what comes out of that path is what the caller gets. *)
Theorem errors_reach_caller_or_host_unchanged :
  (forall p s e s1, call body p [] s = (Throw e, s1) ->
     resolve body (VFunction p) s = (Throw e, s1)) /\
  (forall a callback fallback args s e s1,
     resolve body a s = (Throw e, s1) ->
     check body a callback fallback s = (Throw e, s1) /\
     when body a callback fallback args s = (Throw e, s1)) /\
  (forall a callback fallback args s v s1 e s2,
     resolve body a s = (Normal v, s1) -> ToBoolean v = true ->
     (callback [v] s1 = (Throw e, s2) ->
        check body a callback fallback s = (Throw e, s2)) /\
     (callback (v :: args) s1 = (Throw e, s2) ->
        when body a callback fallback args s = (Throw e, s2))) /\
  (forall a callback (fb : Fn World) args s v s1 e s2,
     resolve body a s = (Normal v, s1) -> ToBoolean v = false ->
     (fb [] s1 = (Throw e, s2) ->
        check body a callback (Some fb) s = (Throw e, s2)) /\
     (fb args s1 = (Throw e, s2) ->
        when body a callback (Some fb) args s = (Throw e, s2))) /\
  (forall pre a post args s vs s1 e s2,
     resolve_seq body pre s vs s1 -> Forall truthy vs ->
     resolve body a s1 = (Throw e, s2) ->
     every body (pre ++ a :: post) args s = (Throw e, s2)) /\
  (forall a callback fallback,
     exists gated : Fn World,
       (forall (Handle : Type) (fn : Fn World -> M World Handle) s,
          whenify body fn a callback fallback s = fn gated s) /\
       (forall args s e s1,
          resolve body a s = (Throw e, s1) -> gated args s = (Throw e, s1)) /\
       (forall args s v s1 e s2,
          resolve body a s = (Normal v, s1) -> ToBoolean v = true ->
          callback (v :: args) s1 = (Throw e, s2) ->
          gated args s = (Throw e, s2)) /\
       (forall (fb : Fn World) args s v s1 e s2,
          fallback = Some fb ->
          resolve body a s = (Normal v, s1) -> ToBoolean v = false ->
          fb args s1 = (Throw e, s2) ->
          gated args s = (Throw e, s2))) /\
  (forall a callback fallback s e s1,
     when body a callback fallback [host_initial_value] s = (Throw e, s1) ->
     whenMemo body host_error a callback fallback s
       = (Throw (host_error e), s1)) /\
  (forall (m : memo World) a callback fallback s e s1,
     memo_fn m = when body a callback fallback ->
     when body a callback fallback [memo_value m] s = (Throw e, s1) ->
     memo_update host_error m s = (Throw (host_error e), s1)).
Proof.
  split; [|split; [|split; [|split; [|split; [|split; [|split]]]]]].
  - intros p s e s1 H. exact H.
  - intros a callback fallback args s e s1 Hr.
    split; [|unfold when]; now apply check_resolve_throws.
  - intros a callback fallback args s v s1 e s2 Hr Hv.
    split; intros Hc; [|unfold when];
      rewrite (check_run _ _ _ _ _ _ _ Hr), Hv; exact Hc.
  - intros a callback fb args s v s1 e s2 Hr Hv.
    split; intros Hc; [|unfold when];
      rewrite (check_run _ _ _ _ _ _ _ Hr), Hv; exact Hc.
  - intros pre a post args s vs s1 e s2 Hs Hall Hr.
    exact (every_stops _ _ _ _ _ _ _ _ _ _ Hs Hall Hr I).
  - intros a callback fallback. exists (when body a callback fallback).
    split; [reflexivity|]. split; [|split].
    + intros args s e s1 Hr. unfold when. now apply check_resolve_throws.
    + intros args s v s1 e s2 Hr Hv Hc. unfold when.
      rewrite (check_run _ _ _ _ _ _ _ Hr), Hv. exact Hc.
    + intros fb args s v s1 e s2 -> Hr Hv Hc. unfold when.
      rewrite (check_run _ _ _ _ _ _ _ Hr), Hv. exact Hc.
  - intros a callback fallback s e s1 Hc.
    unfold whenMemo, whenify, createMemo. now apply memo_update_throws.
  - intros m a callback fallback s e s1 Hm Hc.
    apply memo_update_throws. now rewrite Hm.
Qed.

End Errors.

(** The producer throws: [check] throws the same value and the callback is
    not called; placed second in [every], after a truthy input, it makes
    the producer of [every] throw instead of returning an array. *)
Lemma errors_reach_caller_or_host_unchanged_witness :
  resolve Demo.body (VFunction 3) (Demo.start 5)
    = (Throw Demo.error_value, mkState (Demo.mkWorld 5 0) [Call 3 []]) /\
  check Demo.body (VFunction 3) (call Demo.body 1) None (Demo.start 5)
    = (Throw Demo.error_value, mkState (Demo.mkWorld 5 0) [Call 3 []]) /\
  every Demo.body ([VBoolean true] ++ VFunction 3 :: [VFunction 5]) []
    (Demo.start 5)
    = (Throw Demo.error_value, mkState (Demo.mkWorld 5 0) [Call 3 []]).
Proof.
  pose proof (errors_reach_caller_or_host_unchanged Demo.body Demo.host_error)
    as (_ & Hcheck & _ & _ & Hevery & _).
  split; [reflexivity|]. split.
  - exact (proj1 (Hcheck (VFunction 3) (call Demo.body 1) None []
                    (Demo.start 5) _ _ eq_refl)).
  - refine (Hevery [VBoolean true] (VFunction 3) [VFunction 5] []
              (Demo.start 5) [VBoolean true] (Demo.start 5) _ _ _ _ eq_refl).
    + eapply resolve_seq_cons; [reflexivity | apply resolve_seq_nil].
    + repeat constructor.
Defined.

(** A memo over a callback that throws a string, on a host whose error
    path replaces what is not an error object: the callback throws the
    string, the caller of the adapted constructor gets an error object. *)
Lemma adapted_constructor_error_counterexample :
  call Demo.body 3 [VBoolean true; host_initial_value] (Demo.start 0)
    = (Throw Demo.error_value,
       mkState (Demo.mkWorld 0 0) [Call 3 [VBoolean true; VUndefined]]) /\
  whenMemo Demo.body Demo.host_error (VBoolean true) (call Demo.body 3) None
    (Demo.start 0)
    = (Throw (VObject 0),
       mkState (Demo.mkWorld 0 0) [Call 3 [VBoolean true; VUndefined]]) /\
  VObject 0 <> Demo.error_value.
Proof. split; [reflexivity|]. split; [reflexivity | discriminate]. Qed.

(** ** Previous-value threading through the host's memo *)

Section Threading.

Context {World : Type}.
Variable body : ref -> list value -> World -> completion value * World.
Variable host_error : value -> value.

Implicit Types (s : state World) (v e previous result : value).
Implicit Types (cb : ref) (fb : option ref) (m : memo World).

Lemma gated_compute_run accessor cb fb previous s v s1 :
  resolve body accessor s = (Normal v, s1) ->
  when body accessor (call body cb) (call body <$> fb) [previous] s =
  if ToBoolean v then call body cb [v; previous] s1
  else match fb with
       | Some f => call body f [previous] s1
       | None => (Normal VUndefined, s1)
       end.
Proof.
  intros Hr. now apply when_run.
Qed.

Lemma memo_update_inv m s m' s' :
  memo_update host_error m s = (Normal m', s') ->
  memo_fn m' = memo_fn m /\
  memo_fn m [memo_value m] s = (Normal (memo_value m'), s').
Proof.
  unfold memo_update, map_throw, mbind, M_bind, mret, M_ret.
  destruct (memo_fn m [memo_value m] s) as [[r|e] s2]; [|discriminate].
  intros [= <- <-]. split; reflexivity.
Qed.



Lemma adapted_memo_fn accessor cb fb m :
  adapted_memo body host_error accessor cb fb m ->
  memo_fn m = when body accessor (call body cb) (call body <$> fb).
Proof.
  induction 1 as [s m s' Hc|m s m' s' _ IH Hu].
  - now apply memo_update_inv in Hc as [Hfn _].
  - apply memo_update_inv in Hu as [Hfn _]. congruence.
Qed.


(** C10: take a memo the adapted constructor built without a fallback,
    re-run any number of times.  An invocation whose input resolves falsy
    calls no branch and makes the memo hold [undefined], whatever it held;
    the next invocation whose input resolves truthy calls the callback
    with [undefined] as previous. *)
Theorem falsy_interlude_forgets_previous accessor cb m s v s1 :
  adapted_memo body host_error accessor cb None m ->
  resolve body accessor s = (Normal v, s1) -> ToBoolean v = false ->
  exists m1,
    memo_update host_error m s = (Normal m1, s1) /\
    memo_value m1 = VUndefined /\
    adapted_memo body host_error accessor cb None m1 /\
    forall s' v' s1',
      resolve body accessor s' = (Normal v', s1') -> ToBoolean v' = true ->
      memo_update host_error m1 s'
        = (r ← map_throw host_error (call body cb [v'; VUndefined]);
           mret (mkMemo (memo_fn m1) r)) s1' /\
      trace (memo_update host_error m1 s').2
        = trace s1' ++ [Call cb [v'; VUndefined]].
Proof.
  intros Ha Hr Hv. pose proof (adapted_memo_fn _ _ _ _ Ha) as Hm.
  simpl in Hm.
  assert (Hu : memo_update host_error m s
               = (Normal (mkMemo (memo_fn m) VUndefined), s1)).
  { unfold memo_update, map_throw, mbind, M_bind. rewrite Hm.
    pose proof (gated_compute_run accessor cb None (memo_value m) s v s1 Hr)
      as Hg.
    rewrite Hv in Hg. simpl in Hg. now rewrite Hg. }
  exists (mkMemo (memo_fn m) VUndefined).
  split; [exact Hu|]. split; [reflexivity|].
  split; [exact (adapted_rerun _ _ _ _ _ _ _ _ _ Ha Hu)|].
  intros s' v' s1' Hr' Hv'.
  pose proof (gated_compute_run accessor cb None VUndefined s' v' s1' Hr')
    as Hg.
  rewrite Hv' in Hg. simpl in Hg.
  unfold memo_update, map_throw. simpl. rewrite Hm. unfold mbind, M_bind.
  rewrite Hg. split; [reflexivity|].
  pose proof (call_trace body cb [v'; VUndefined] s1') as Ht.
  destruct (call body cb [v'; VUndefined] s1') as [[r|e] s2]; exact Ht.
Qed.

Lemma memo_update_trace m s :
  trace (memo_update host_error m s).2 = trace (memo_fn m [memo_value m] s).2.
Proof.
  unfold memo_update, map_throw, mbind, M_bind, mret, M_ret.
  now destruct (memo_fn m [memo_value m] s) as [[r|e] s2].
Qed.

(** C8, as the code has it: the adapter passes on what the host gives.
    On the first invocation the branch receives the host's initial value,
    on a later one the value the cell holds; the host's initial value is
    [undefined], which differs from every value other than [undefined],
    the number 0 and [false] included. *)
Theorem no_previous_result_is_undefined accessor cb fb s v s1 :
  resolve body accessor s = (Normal v, s1) ->
  trace (whenMemo body host_error accessor (call body cb)
           (call body <$> fb) s).2
    = trace s1 ++ branch_events v cb [v; VUndefined] fb [VUndefined] /\
  (forall m,
     memo_fn m = when body accessor (call body cb) (call body <$> fb) ->
     trace (memo_update host_error m s).2
       = trace s1 ++ branch_events v cb [v; memo_value m] fb [memo_value m]) /\
  (forall r, r <> VUndefined -> r <> host_initial_value) /\
  VNumber num_pos_zero <> host_initial_value /\
  VBoolean false <> host_initial_value.
Proof.
  intros Hr. split; [|split; [|split; [|split]]].
  - unfold whenMemo, whenify, createMemo. rewrite memo_update_trace. simpl.
    now apply when_trace_after.
  - intros m Hm. rewrite memo_update_trace, Hm. now apply when_trace_after.
  - intros r Hne. exact Hne.
  - discriminate.
  - discriminate.
Qed.

End Threading.


(** [whenMemo(signal, cb)] created while the signal holds 5, then re-run
    when the signal is empty: the memo, which held 5, holds [undefined]. *)
Lemma falsy_interlude_forgets_previous_witness :
  exists m0 s0,
    whenMemo Demo.body Demo.host_error (VFunction 0) (call Demo.body 1) None
      (Demo.start 5) = (Normal m0, s0) /\
    memo_value m0 = VNumber (num_of_pos 5) /\
    resolve Demo.body (VFunction 0) (Demo.start 0)
      = (Normal VNull, mkState (Demo.mkWorld 0 0) [Call 0 []]) /\
    exists m1,
      memo_update Demo.host_error m0 (Demo.start 0)
        = (Normal m1, mkState (Demo.mkWorld 0 0) [Call 0 []]) /\
      memo_value m1 = VUndefined.
Proof.
  eexists. eexists. split; [reflexivity|]. split; [reflexivity|].
  split; [reflexivity|].
  destruct (falsy_interlude_forgets_previous Demo.body Demo.host_error
              (VFunction 0) 1 _ (Demo.start 0) VNull _
              (adapted_created Demo.body Demo.host_error (VFunction 0) 1 None
                 (Demo.start 5) _ _ eq_refl)
              eq_refl eq_refl) as (m1 & Hu & Hval & _).
  exists m1. split; [exact Hu | exact Hval].
Defined.

(** A memo without fallback over a callback that returns [undefined]: the
    second invocation, which follows a real result, receives the very
    previous value the first invocation received. *)
Lemma no_previous_marker_counterexample :
  exists m1 s1 m2 s2,
    whenMemo Demo.body Demo.host_error (VFunction 0) (call Demo.body 6) None
      (Demo.start 5)
      = (Normal m1, s1) /\
    memo_value m1 = host_initial_value /\
    memo_update Demo.host_error m1 s1 = (Normal m2, s2) /\
    trace s2 =
      [Call 0 []; Call 6 [VNumber (num_of_pos 5); host_initial_value];
       Call 0 []; Call 6 [VNumber (num_of_pos 5); host_initial_value]].
Proof.
  do 4 eexists. split; [reflexivity|]. split; [reflexivity|].
  split; reflexivity.
Qed.

(** First invocation of a memo over the signal holding 5. *)
Lemma no_previous_result_is_undefined_witness :
  resolve Demo.body (VFunction 0) (Demo.start 5)
    = (Normal (VNumber (num_of_pos 5)), mkState (Demo.mkWorld 5 0) [Call 0 []]) /\
  trace (whenMemo Demo.body Demo.host_error (VFunction 0) (call Demo.body 1)
           (call Demo.body <$> Some 2) (Demo.start 5)).2
    = [Call 0 []; Call 1 [VNumber (num_of_pos 5); VUndefined]].
Proof.
  split; [reflexivity|].
  exact (proj1 (no_previous_result_is_undefined Demo.body Demo.host_error
                  (VFunction 0) 1 (Some 2) (Demo.start 5) _ _ eq_refl)).
Defined.

(** ** Function-valued inputs *)

Section Producers.

Context {World : Type}.
Variable body : ref -> list value -> World -> completion value * World.

Implicit Types (s : state World) (v : value).
Implicit Types (callback : Fn World) (fallback : option (Fn World)).


End Producers.



(** ** The library's unit tests, replayed on the embedding *)

Example test_check_returns_undefined_for_falsy :
  Forall (fun v => check Demo.body v (call Demo.body 1) None (Demo.start 0)
                   = (Normal VUndefined, Demo.start 0))
    [VBoolean false; VNumber num_pos_zero; VNumber num_neg_zero; VBigInt 0;
     VString ""; VNull; VUndefined; VNumber num_nan].
Proof. repeat constructor. Qed.

Example test_check_runs_callback_for_truthy :
  Forall (fun v => check Demo.body v (call Demo.body 1) None (Demo.start 0)
                   = (Normal v, mkState (Demo.mkWorld 0 0) [Call 1 [v]]))
    [VBoolean true; VNumber (num_of_pos 1); VNumber (S754_finite true 1 0);
     VString "hello"; VString " "; VString "0"; VString "false"; VArray [];
     VObject 0; VSymbol 0; VBigInt 1; VNumber (S754_infinity false);
     VNumber (S754_infinity true)].
Proof. repeat constructor. Qed.

Example test_every_with_a_falsy_input :
  every Demo.body [VNumber (num_of_pos 1); VNumber num_pos_zero; VString "a"]
    [] (Demo.start 0)
  = (Normal VUndefined, Demo.start 0).
Proof. reflexivity. Qed.

Example test_every_with_truthy_inputs :
  every Demo.body [VNumber (num_of_pos 1); VString "a"; VObject 0] []
    (Demo.start 0)
  = (Normal (VArray [Some (VNumber (num_of_pos 1)); Some (VString "a");
                     Some (VObject 0)]),
     Demo.start 0).
Proof. reflexivity. Qed.

Example test_gate_resolves_at_each_call :
  Demo.gate_twice (Demo.start 5)
  = (Normal [VNumber (num_of_pos 5); VUndefined],
     mkState (Demo.mkWorld 0 2)
       [Call 5 []; Call 1 [VNumber (num_of_pos 5)]; Call 5 []]).
Proof. reflexivity. Qed.

Example test_memo_scenario :
  Demo.memo_scenario (Demo.start 0)
  = (Normal [VString "fallback"; VNumber (num_of_pos 5);
             VNumber (num_of_pos 7); VString "fallback"],
     mkState (Demo.mkWorld 0 0)
       [Call 0 []; Call 2 [VUndefined];
        Call 0 []; Call 1 [VNumber (num_of_pos 5); VString "fallback"];
        Call 0 []; Call 1 [VNumber (num_of_pos 7); VNumber (num_of_pos 5)];
        Call 0 []; Call 2 [VNumber (num_of_pos 7)]]).
Proof. reflexivity. Qed.

(** ** Further properties of the guarded invoker and the gate *)

Section GateLaws.

Context {World : Type}.
Variable body : ref -> list value -> World -> completion value * World.

Implicit Types (s : state World) (v e a b : value) (cb : ref) (fb : option ref).
Implicit Types (callback : Fn World) (fallback : option (Fn World)).

Lemma resolve_throw_origin a s e s1 :
  resolve body a s = (Throw e, s1) ->
  exists p, a = VFunction p /\ call body p [] s = (Throw e, s1).
Proof.
  destruct a; simpl; intros H; try discriminate H. now eexists.
Qed.

(** The calls a resolution adds to the trace never carry an argument. *)
Lemma resolve_events_no_argument a cb x rest :
  ~ In (Call cb (x :: rest))
      (match a with VFunction p => [Call p []] | _ => [] end).
Proof. destruct a; simpl; intros H; try easy. now destruct H as [H|H]. Qed.

(** X1: the gated function called without arguments is [check], and so is
    the adapted constructor of [fn => fn()]. *)
Theorem gate_without_arguments_is_check a callback fallback s :
  when body a callback fallback [] s = check body a callback fallback s /\
  whenify body mockFn a callback fallback s = check body a callback fallback s.
Proof.
  assert (H : when body a callback fallback [] s
              = check body a callback fallback s).
  { unfold when, check, mbind, M_bind.
    destruct (resolve body a s) as [[v|e] s1]; [|reflexivity].
    destruct (ToBoolean v); [reflexivity|]. now destruct fallback. }
  split; exact H.
Qed.

(** X2: [check] throws only what the code it was given throws: the
    producer input, the callback on a truthy value, or the fallback on a
    falsy one. *)
Theorem check_throws_only_from_given_code a callback fallback s e s' :
  check body a callback fallback s = (Throw e, s') ->
  (exists p, a = VFunction p /\ call body p [] s = (Throw e, s')) \/
  (exists v s1, resolve body a s = (Normal v, s1) /\ ToBoolean v = true /\
     callback [v] s1 = (Throw e, s')) \/
  (exists v s1 f, resolve body a s = (Normal v, s1) /\ ToBoolean v = false /\
     fallback = Some f /\ f [] s1 = (Throw e, s')).
Proof.
  intros Hc. destruct (resolve body a s) as [[v|e0] s1] eqn:Hr.
  - rewrite (check_run _ _ _ _ _ _ _ Hr) in Hc.
    destruct (ToBoolean v) eqn:Hv.
    + right. left. now exists v, s1.
    + destruct fallback as [f|]; [|discriminate Hc].
      right. right. now exists v, s1, f.
  - rewrite (check_resolve_throws _ _ _ _ _ _ _ Hr) in Hc.
    injection Hc as -> ->. left. now apply resolve_throw_origin.
Qed.

(** X3: whatever happens, a call that [check] makes to the callback with
    an argument is a call with the resolved value alone, and that value is
    truthy; the same holds for the gated function, whose callback then
    also gets the call's arguments, when the fallback is another function. *)
Theorem callback_only_receives_truthy a cb fb args s :
  (exists new,
     trace (check body a (call body cb) (call body <$> fb) s).2
       = trace s ++ new /\
     forall x rest, In (Call cb (x :: rest)) new ->
       ToBoolean x = true /\ rest = [] /\
       exists s1, resolve body a s = (Normal x, s1)) /\
  (fb <> Some cb ->
   exists new,
     trace (when body a (call body cb) (call body <$> fb) args s).2
       = trace s ++ new /\
     forall x rest, In (Call cb (x :: rest)) new ->
       ToBoolean x = true /\ rest = args /\
       exists s1, resolve body a s = (Normal x, s1)).
Proof.
  pose proof (resolve_trace body a s) as Ht.
  pose proof (fun x rest => resolve_events_no_argument a cb x rest) as Hno.
  destruct (resolve body a s) as [[v|e] s1] eqn:Hr; simpl in Ht.
  - split.
    + rewrite (check_run _ _ _ _ _ _ _ Hr).
      destruct (ToBoolean v) eqn:Hv; [|destruct fb as [f|]; simpl].
      * eexists. rewrite call_trace, Ht, <- app_assoc. split; [reflexivity|].
        intros x rest [Hin|[[= <- <-]|[]]]%in_app_or; [now apply Hno in Hin|].
        eauto.
      * eexists. rewrite call_trace, Ht, <- app_assoc. split; [reflexivity|].
        intros x rest [Hin|[[=]|[]]]%in_app_or. now apply Hno in Hin.
      * eexists. split; [exact Ht|]. intros x rest Hin. now apply Hno in Hin.
    + intros Hne. rewrite (when_run _ _ _ _ _ _ _ _ Hr).
      destruct (ToBoolean v) eqn:Hv; [|destruct fb as [f|]; simpl].
      * eexists. rewrite call_trace, Ht, <- app_assoc. split; [reflexivity|].
        intros x rest [Hin|[[= <- <-]|[]]]%in_app_or; [now apply Hno in Hin|].
        eauto.
      * eexists. rewrite call_trace, Ht, <- app_assoc. split; [reflexivity|].
        intros x rest [Hin|[[= -> _]|[]]]%in_app_or;
          [now apply Hno in Hin | now destruct Hne].
      * eexists. split; [exact Ht|]. intros x rest Hin. now apply Hno in Hin.
  - split; [|intros _; unfold when];
      rewrite (check_resolve_throws _ _ _ _ _ _ _ Hr);
      (eexists; split; [exact Ht|]);
      intros x rest Hin; now apply Hno in Hin.
Qed.

(** X4: a gated function used as the callback of [check] gets the outer
    value as its argument.  When the outer input resolves falsy the inner
    input is not resolved; when it resolves truthy, the inner input is
    resolved next, the inner callback receives the inner value followed by
    the outer value, and the inner fallback receives the outer value. *)
Theorem nested_gate_threads_outer_value a b cb fb s v s1 :
  resolve body a s = (Normal v, s1) ->
  (ToBoolean v = false ->
     check body a (when body b (call body cb) (call body <$> fb)) None s
       = (Normal VUndefined, s1)) /\
  (ToBoolean v = true -> forall w s2,
     resolve body b s1 = (Normal w, s2) ->
     check body a (when body b (call body cb) (call body <$> fb)) None s =
     if ToBoolean w then call body cb [w; v] s2
     else match fb with
          | Some f => call body f [v] s2
          | None => (Normal VUndefined, s2)
          end).
Proof.
  intros Hr. split; intros Hv.
  - now rewrite (check_run _ _ _ _ _ _ _ Hr), Hv.
  - intros w s2 Hb. rewrite (check_run _ _ _ _ _ _ _ Hr), Hv.
    now apply when_run.
Qed.

End GateLaws.

(** The producer throws, and this is what [check] throws. *)
Lemma check_throws_only_from_given_code_witness :
  check Demo.body (VFunction 3) (call Demo.body 1) None (Demo.start 5)
    = (Throw Demo.error_value, mkState (Demo.mkWorld 5 0) [Call 3 []]) /\
  ((exists p, VFunction 3 = VFunction p /\
      call Demo.body p [] (Demo.start 5)
        = (Throw Demo.error_value, mkState (Demo.mkWorld 5 0) [Call 3 []])) \/
   (exists v s1, resolve Demo.body (VFunction 3) (Demo.start 5) = (Normal v, s1) /\
      ToBoolean v = true /\
      call Demo.body 1 [v] s1
        = (Throw Demo.error_value, mkState (Demo.mkWorld 5 0) [Call 3 []])) \/
   (exists v s1 (f : Fn Demo.World),
      resolve Demo.body (VFunction 3) (Demo.start 5) = (Normal v, s1) /\
      ToBoolean v = false /\ None = Some f /\
      f [] s1 = (Throw Demo.error_value, mkState (Demo.mkWorld 5 0) [Call 3 []]))).
Proof.
  split; [reflexivity|].
  exact (check_throws_only_from_given_code Demo.body (VFunction 3)
           (call Demo.body 1) None (Demo.start 5) _ _ eq_refl).
Defined.

(** The gate over the signal, with fallback 2 and callback 1. *)
Lemma callback_only_receives_truthy_witness :
  Some 2 <> Some 1 /\
  exists new,
    trace (when Demo.body (VFunction 0) (call Demo.body 1)
             (call Demo.body <$> Some 2) [VString "x"] (Demo.start 5)).2
      = trace (Demo.start 5) ++ new /\
    forall x rest, In (Call 1 (x :: rest)) new ->
      ToBoolean x = true /\ rest = [VString "x"] /\
      exists s1, resolve Demo.body (VFunction 0) (Demo.start 5) = (Normal x, s1).
Proof.
  assert (Hne : Some 2 <> Some 1) by discriminate.
  split; [exact Hne|].
  exact (proj2 (callback_only_receives_truthy Demo.body (VFunction 0) 1
                  (Some 2) [VString "x"] (Demo.start 5)) Hne).
Defined.

(** [check(true, when(signal, cb, fb))] while the signal holds 5: the inner
    callback receives 5, then [true]. *)
Lemma nested_gate_threads_outer_value_witness :
  resolve Demo.body (VBoolean true) (Demo.start 5)
    = (Normal (VBoolean true), Demo.start 5) /\
  check Demo.body (VBoolean true)
    (when Demo.body (VFunction 0) (call Demo.body 1) (call Demo.body <$> Some 2))
    None (Demo.start 5)
  = (Normal (VNumber (num_of_pos 5)),
     mkState (Demo.mkWorld 5 0)
       [Call 0 []; Call 1 [VNumber (num_of_pos 5); VBoolean true]]).
Proof.
  split; [reflexivity|].
  exact (proj2 (nested_gate_threads_outer_value Demo.body (VBoolean true)
                  (VFunction 0) 1 (Some 2) (Demo.start 5) _ _ eq_refl)
           eq_refl _ _ eq_refl).
Defined.

(** ** Further properties of the conjunction *)

Section ConjunctionLaws.

Context {World : Type}.
Variable body : ref -> list value -> World -> completion value * World.

Implicit Types (s : state World) (v e a : value) (cb : ref) (fb : option ref).
Implicit Types (accessors pre post vs : list value).

Lemma producer_calls_snoc pre a :
  producer_calls (pre ++ [a]) =
  producer_calls pre ++ match a with VFunction p => [Call p []] | _ => [] end.
Proof.
  unfold producer_calls. rewrite flat_map_app. simpl. now rewrite app_nil_r.
Qed.

(** X5: in one call the producer of [every] resolves a prefix of its
    inputs, each once, in input order, and makes no other call; when it
    returns an array the prefix is the whole list. *)
Theorem every_resolves_a_prefix_once accessors args s :
  exists resolved rest,
    accessors = resolved ++ rest /\
    trace (every body accessors args s).2
      = trace s ++ producer_calls resolved /\
    (forall slots,
       (every body accessors args s).1 = Normal (VArray slots) -> rest = []).
Proof.
  destruct (resolve_cases body accessors s) as
    [(vs & s' & Hs & Hall)
    |[(pre & a & post & vs & s1 & v & s2 & -> & Hs & Hall & Hr & Hv)
     |(pre & a & post & vs & s1 & e & s2 & -> & Hs & Hall & Hr)]].
  - exists accessors, []. rewrite app_nil_r, (every_all _ _ _ _ _ _ Hs Hall).
    split; [reflexivity|]. split; [|reflexivity].
    exact (resolve_seq_trace _ _ _ _ _ Hs).
  - exists (pre ++ [a]), post. rewrite <- app_assoc.
    rewrite (every_stops _ _ _ _ _ _ _ _ _ _ Hs Hall Hr Hv).
    split; [reflexivity|]. split; [|discriminate].
    exact (resolve_seq_trace _ _ _ _ _ (resolve_seq_app _ _ _ _ _ _ _ _ Hs Hr)).
  - exists (pre ++ [a]), post. rewrite <- app_assoc.
    rewrite (every_stops _ _ _ _ _ _ _ _ _ _ Hs Hall Hr I).
    split; [reflexivity|]. split; [|discriminate].
    pose proof (resolve_trace body a s1) as Ht. rewrite Hr in Ht.
    simpl in *. rewrite Ht, (resolve_seq_trace _ _ _ _ _ Hs).
    now rewrite producer_calls_snoc, app_assoc.
Qed.

(** X6: the producer of [every] throws only what one of its producer
    inputs throws, the inputs before it having resolved truthy. *)
Theorem every_throws_only_from_a_producer accessors args s e s' :
  every body accessors args s = (Throw e, s') ->
  exists pre p post vs s1,
    accessors = pre ++ VFunction p :: post /\
    resolve_seq body pre s vs s1 /\ Forall truthy vs /\
    call body p [] s1 = (Throw e, s').
Proof.
  intros He.
  destruct (resolve_cases body accessors s) as
    [(vs & s2 & Hs & Hall)
    |[(pre & a & post & vs & s1 & v & s2 & -> & Hs & Hall & Hr & Hv)
     |(pre & a & post & vs & s1 & e0 & s2 & -> & Hs & Hall & Hr)]].
  - rewrite (every_all _ _ _ _ _ _ Hs Hall) in He. discriminate He.
  - rewrite (every_stops _ _ _ _ _ _ _ _ _ _ Hs Hall Hr Hv) in He.
    discriminate He.
  - rewrite (every_stops _ _ _ _ _ _ _ _ _ _ Hs Hall Hr I) in He.
    injection He as -> ->.
    destruct (resolve_throw_origin _ _ _ _ _ Hr) as (p & -> & Hp).
    exists pre, p, post, vs, s1. auto.
Qed.

(** The library's functions do not look at the trace. *)
Lemma framed_ret {A} (x : A) : framed (mret x : M World A).
Proof. intros w t. simpl. unfold mret, M_ret. simpl. now rewrite app_nil_r. Qed.

Lemma framed_call f args : framed (call body f args).
Proof. intros w t. unfold call. simpl. now destruct (body f args w). Qed.

Lemma framed_resolve a : framed (resolve body a).
Proof.
  destruct a; try apply framed_ret. apply framed_call.
Qed.

Lemma framed_bind {A B} (m : M World A) (k : A -> M World B) :
  framed m -> (forall x, framed (k x)) -> framed (m ≫= k).
Proof.
  intros Hm Hk w t. unfold mbind, M_bind. rewrite (Hm w t).
  destruct (m (mkState w [])) as [[x|e] [w1 t1]]; simpl.
  - rewrite (Hk x w1 (t ++ t1)), (Hk x w1 t1).
    destruct (k x (mkState w1 [])) as [c [w2 t2]]. simpl.
    now rewrite app_assoc.
  - reflexivity.
Qed.

Lemma framed_every_loop accessors remaining i values :
  framed (every_loop body accessors remaining i values).
Proof.
  revert i values. induction remaining as [|remaining IH]; intros i values.
  - apply framed_ret.
  - simpl. apply framed_bind; [apply framed_resolve|].
    intros x. destruct (negb (ToBoolean x)); [apply framed_ret | apply IH].
Qed.

Lemma every_as_function_object g accessors s c s' :
  is_closure body g (every body accessors) ->
  every body accessors [] s = (c, s') ->
  call body g [] s = (c, mkState (world s') (trace s ++ [Call g []])).
Proof.
  intros Hg He. unfold call. rewrite (Hg [] (world s)). unfold run_on_world.
  destruct s as [w t]. simpl.
  pose proof (framed_every_loop accessors (length accessors - 0) 0
                (array_new (length accessors)) w t) as Hf.
  unfold every in *. rewrite He in Hf.
  destruct (every_loop body accessors (length accessors - 0) 0
              (array_new (length accessors)) (mkState w [])) as [c0 s0].
  now injection Hf as -> ->.
Qed.

(** X7: a gate whose input is the producer built by [every] runs its
    callback on the array of the resolved values, followed by the call's
    arguments, when all the inputs resolve truthy; when an input resolves
    falsy after truthy ones it runs the fallback on the call's arguments,
    or returns [undefined], in the world that resolution left, and the
    callback is not called. *)
Theorem gate_over_every g accessors cb fb args s :
  is_closure body g (every body accessors) ->
  (forall vs s', resolve_seq body accessors s vs s' -> Forall truthy vs ->
     when body (VFunction g) (call body cb) (call body <$> fb) args s =
     call body cb (VArray (Some <$> vs) :: args)
       (mkState (world s') (trace s ++ [Call g []]))) /\
  (forall pre a post vs s1 v s2,
     accessors = pre ++ a :: post ->
     resolve_seq body pre s vs s1 -> Forall truthy vs ->
     resolve body a s1 = (Normal v, s2) -> ToBoolean v = false ->
     when body (VFunction g) (call body cb) (call body <$> fb) args s =
     match fb with
     | Some f =>
         call body f args (mkState (world s2) (trace s ++ [Call g []]))
     | None =>
         (Normal VUndefined, mkState (world s2) (trace s ++ [Call g []]))
     end).
Proof.
  intros Hg. split.
  - intros vs s' Hs Hall.
    pose proof (every_as_function_object g accessors s _ _ Hg
                  (every_all body accessors [] s vs s' Hs Hall)) as Hc.
    now rewrite (when_run body (VFunction g) cb fb args s _ _ Hc).
  - intros pre a post vs s1 v s2 -> Hs Hall Hr Hv.
    pose proof (every_as_function_object g _ s _ _ Hg
                  (every_stops body pre a post [] s vs s1 _ s2 Hs Hall Hr Hv))
      as Hc.
    now rewrite (when_run body (VFunction g) cb fb args s _ _ Hc).
Qed.

End ConjunctionLaws.

(** [every(signal, throwing, counting)] while the signal holds 5. *)
Lemma every_throws_only_from_a_producer_witness :
  every Demo.body [VFunction 0; VFunction 3; VFunction 5] [] (Demo.start 5)
    = (Throw Demo.error_value,
       mkState (Demo.mkWorld 5 0) [Call 0 []; Call 3 []]) /\
  exists pre p post vs s1,
    [VFunction 0; VFunction 3; VFunction 5] = pre ++ VFunction p :: post /\
    resolve_seq Demo.body pre (Demo.start 5) vs s1 /\ Forall truthy vs /\
    call Demo.body p [] s1
      = (Throw Demo.error_value,
         mkState (Demo.mkWorld 5 0) [Call 0 []; Call 3 []]).
Proof.
  split; [reflexivity|].
  exact (every_throws_only_from_a_producer Demo.body
           [VFunction 0; VFunction 3; VFunction 5] [] (Demo.start 5) _ _ eq_refl).
Defined.

Lemma DemoClosure_is_closure :
  is_closure DemoClosure.body 10 (every DemoClosure.body DemoClosure.inputs).
Proof. intros args w. reflexivity. Defined.

(** [when(every(signal, counting), cb, fb)("x")] while the signal holds 5:
    the callback receives the pair of values, then ["x"]. *)
Lemma gate_over_every_witness :
  is_closure DemoClosure.body 10 (every DemoClosure.body DemoClosure.inputs) /\
  when DemoClosure.body (VFunction 10) (call DemoClosure.body 1)
    (call DemoClosure.body <$> Some 2) [VString "x"] (Demo.start 5)
  = (Normal (VArray [Some (VNumber (num_of_pos 5)); Some (VNumber (num_of_pos 5))]),
     mkState (Demo.mkWorld 5 1)
       [Call 10 [];
        Call 1 [VArray [Some (VNumber (num_of_pos 5)); Some (VNumber (num_of_pos 5))];
                VString "x"]]).
Proof.
  split; [exact DemoClosure_is_closure|].
  refine (proj1 (gate_over_every DemoClosure.body 10 DemoClosure.inputs 1
                   (Some 2) [VString "x"] (Demo.start 5) DemoClosure_is_closure)
            [VNumber (num_of_pos 5); VNumber (num_of_pos 5)]
            (mkState (Demo.mkWorld 5 1) [Call 0 []; Call 5 []]) _ _).
  - eapply resolve_seq_cons; [reflexivity|].
    eapply resolve_seq_cons; [reflexivity|]. apply resolve_seq_nil.
  - repeat constructor.
Defined.
